(** * args-parser: a shallow embedding of [args.go] and its properties

    The Go package keeps three package-level variables ([Args],
    [registered], [CustomUsage]); they are modelled as one record of
    globals that every operation reads or updates explicitly.  A Go
    [string] is a sequence of bytes and is modelled by [string] (a list of
    8-bit characters); a Go [map[string]string] is a [gmap string string];
    the slice of registered descriptors is a [list Argument].  A Go [int]
    is modelled by [Z]: every integer of the program is a length or a loop
    index, so no operation can leave the 64-bit range.  [PrintUsage],
    which formats the banner and writes it to the standard error, is
    left out; the two functions it calls, [availableFlags] and
    [argNameMaxLen], are modelled. *)

From Stdlib Require Import ZArith Lia Ascii.
From stdpp Require Import gmap strings list fin_maps.

Local Open Scope Z_scope.

(** ** The functions of Go's [strings] package used by the program *)

Module GoStrings.

(** [strings.HasPrefix(s, prefix)]. *)
Fixpoint HasPrefix (s prefix : string) : bool :=
  match prefix, s with
  | EmptyString, _ => true
  | String _ _, EmptyString => false
  | String p prefix', String c s' =>
      if decide (c = p) then HasPrefix s' prefix' else false
  end.

(** [strings.Contains(s, substr)]: [substr] occurs at some position. *)
Fixpoint Contains (s substr : string) : bool :=
  HasPrefix s substr ||
  match s with
  | EmptyString => false
  | String _ s' => Contains s' substr
  end.

(** The slice expression [s[n:]], for [n] at most [len(s)]. *)
Fixpoint sliceFrom (n : nat) (s : string) : string :=
  match n, s with
  | O, _ => s
  | S _, EmptyString => EmptyString
  | S n', String _ s' => sliceFrom n' s'
  end.

(** [strings.TrimPrefix(s, prefix)]: [s] without the leading [prefix],
    and [s] itself when it does not start with [prefix]. *)
Definition TrimPrefix (s prefix : string) : string :=
  if HasPrefix s prefix then sliceFrom (String.length prefix) s else s.

(** [strings.Split(s, sep)] for a non-empty [sep]: the pieces of [s]
    between the successive, non-overlapping occurrences of [sep], read
    from the left.  [skip] counts the bytes of the occurrence of [sep]
    that is being stepped over.  The head of the result is the piece
    in progress, so the result is never empty. *)
Fixpoint splitFrom (sep : string) (skip : nat) (s : string) : list string :=
  match s with
  | EmptyString => [EmptyString]
  | String c s' =>
      match skip with
      | S k => splitFrom sep k s'
      | O =>
          if HasPrefix s sep
          then EmptyString :: splitFrom sep (String.length sep - 1) s'
          else match splitFrom sep O s' with
               | piece :: pieces => String c piece :: pieces
               | [] => [String c EmptyString]
               end
      end
  end.

(** With an empty separator Go explodes the string into its UTF-8
    sequences; the program never does that (its only separator is
    ["="]), so the bytes stand for them here. *)
Fixpoint explode (s : string) : list string :=
  match s with
  | EmptyString => []
  | String c s' => String c EmptyString :: explode s'
  end.

Definition Split (s sep : string) : list string :=
  match sep with
  | EmptyString => explode s
  | String _ _ => splitFrom sep O s
  end.

(** [strings.Join(elems, sep)]. *)
Fixpoint Join (elems : list string) (sep : string) : string :=
  match elems with
  | [] => EmptyString
  | [e] => e
  | e :: rest => e +:+ sep +:+ Join rest sep
  end.

(** [strings.Replace(s, old, "", 1)]: [s] with its first occurrence of
    [old] cut out.  The program does not call it; it states what
    "removing the first occurrence" means. *)
Fixpoint removeFirst (old s : string) : string :=
  if HasPrefix s old then sliceFrom (String.length old) s
  else match s with
       | EmptyString => EmptyString
       | String c s' => String c (removeFirst old s')
       end.

(** [strings.Cut(s, sep)]: [s] cut around its first occurrence of
    [sep], as (before, after, found).  The program does not call it; it
    states what "splitting on the first separator only" means. *)
Fixpoint Cut (s sep : string) : string * string * bool :=
  if HasPrefix s sep then (EmptyString, sliceFrom (String.length sep) s, true)
  else match s with
       | EmptyString => (EmptyString, EmptyString, false)
       | String c s' =>
           let '(before, after, found) := Cut s' sep in
           (String c before, after, found)
       end.

(** [strings.Repeat(s, count)], for a [count] that is not negative (Go
    panics on a negative one; the program only calls it with a positive
    difference of lengths). *)
Fixpoint repeatString (n : nat) (s : string) : string :=
  match n with
  | O => EmptyString
  | S n' => s +:+ repeatString n' s
  end.

Definition Repeat (s : string) (count : Z) : string :=
  repeatString (Z.to_nat count) s.

End GoStrings.

Import GoStrings.

(** ** The data model *)

(** [type Argument struct]. *)
Record Argument : Type := mkArgument {
  Name : string;
  Short : string;
  Description : string;
  DefaultValue : string;
  Values : list string;
  ExpectsValue : bool
}.

(** The package-level variables. *)
Record Globals : Type := mkGlobals {
  Args : gmap string string;
  registered : list Argument;
  CustomUsage : string
}.

(** The package state before [init] runs: the zero values. *)
Definition zeroGlobals : Globals :=
  {| Args := ∅; registered := []; CustomUsage := "" |}.

Definition setArgs (m : gmap string string) (g : Globals) : Globals :=
  {| Args := m; registered := registered g; CustomUsage := CustomUsage g |}.

Definition setRegistered (l : list Argument) (g : Globals) : Globals :=
  {| Args := Args g; registered := l; CustomUsage := CustomUsage g |}.

(** [len] of a string, a slice and a map. *)
Definition lenString (s : string) : Z := Z.of_nat (String.length s).
Definition lenSlice {A} (l : list A) : Z := Z.of_nat (length l).
Definition lenMap (m : gmap string string) : Z := Z.of_nat (size m).

(** ** The tokenizer, [parseArgs] *)

(** Lines 49-53: the dash stripping applied to one token. *)
Definition stripDashes (a : string) : string :=
  if Contains a "--" then TrimPrefix a "--"
  else if Contains a "-" then TrimPrefix a "-"
  else a.

(** Lines 54-61: what one token, once stripped, writes into the table. *)
Definition recordToken (a : string) (m : gmap string string)
  : gmap string string :=
  if Contains a "="
  then match Split a "=" with
       | k :: v :: _ => <[k := v]> m    (* len(keyValue) > 1 *)
       | _ => <[a := ""]> m
       end
  else <[a := ""]> m.

(** The body of the loop for the token [a] at index [i]. *)
Definition parseArgsBody (i : Z) (a : string) (m : gmap string string)
  : gmap string string :=
  if i =? 0 then m else recordToken (stripDashes a) m.

(** [for i, a := range os.Args], from index [i] on. *)
Fixpoint parseArgsLoop (i : Z) (osArgs : list string) (m : gmap string string)
  : gmap string string :=
  match osArgs with
  | [] => m
  | a :: rest => parseArgsLoop (i + 1) rest (parseArgsBody i a m)
  end.

Definition parseArgs (osArgs : list string) (g : Globals) : Globals :=
  let g := setArgs ∅ g in
  if lenSlice osArgs <=? 1 then g
  else setArgs (parseArgsLoop 0 osArgs (Args g)) g.

(** ** Operations that update the globals or panic *)

(** A call either returns or panics with a message; either way it leaves
    the globals in some state (a panic can be recovered by the caller, who
    then sees whatever had been written before it). *)
Inductive outcome (A : Type) : Type :=
  | Returned (a : A)
  | Panicked (msg : string).
Arguments Returned {A} a.
Arguments Panicked {A} msg.

Definition Go (A : Type) : Type := Globals -> outcome A * Globals.

Definition ret {A} (a : A) : Go A := fun g => (Returned a, g).

Definition bind {A B} (c : Go A) (k : A -> Go B) : Go B :=
  fun g =>
    match c g with
    | (Returned a, g') => k a g'
    | (Panicked msg, g') => (Panicked msg, g')
    end.

Definition panic {A} (msg : string) : Go A := fun g => (Panicked msg, g).
Definition gets {A} (f : Globals -> A) : Go A := fun g => (Returned (f g), g).
Definition modify (f : Globals -> Globals) : Go unit :=
  fun g => (Returned tt, f g).

Notation "x <- c ;; k" := (bind c (fun x => k))
  (at level 100, c at next level, right associativity).
Notation "c ;;; k" := (bind c (fun _ => k))
  (at level 100, right associativity).

(** [for _, x := range l { body x }] where the body may panic. *)
Fixpoint forRange {A} (l : list A) (body : A -> Go unit) : Go unit :=
  match l with
  | [] => ret tt
  | x :: rest => body x ;;; forRange rest body
  end.

Definition when (b : bool) (c : Go unit) : Go unit :=
  if b then c else ret tt.

Definition nonEmpty (s : string) : bool := negb (String.eqb s "").

(** ** [Register] *)

Definition msgDefault (arg : Argument) : string :=
  "--" +:+ Name arg +:+ " has a default value but does not expect value".
Definition msgName (arg : Argument) : string :=
  "--" +:+ Name arg +:+ " is already a registred argument".
Definition msgShort (arg : Argument) : string :=
  "-" +:+ Short arg +:+ " is already a registred shorthand argument".

(** Lines 156-161: the checks against one registered descriptor [r]. *)
Definition registerCheck (arg r : Argument) : Go unit :=
  when (String.eqb (Name r) (Name arg)) (panic (msgName arg)) ;;;
  when (nonEmpty (Short arg) && String.eqb (Short r) (Short arg))
       (panic (msgShort arg)).

Definition Register (arg : Argument) : Go unit :=
  when (nonEmpty (DefaultValue arg) && negb (ExpectsValue arg))
       (panic (msgDefault arg)) ;;;
  regs <- gets registered ;;
  forRange regs (registerCheck arg) ;;;
  modify (fun g => setRegistered (registered g ++ [arg]) g).

(** ** [Using] and [Value] *)

(** The [v, ok := Args[key]] form of a map read. *)
Definition commaOk (m : gmap string string) (key : string) : string * bool :=
  match m !! key with
  | Some v => (v, true)
  | None => ("", false)
  end.

(** Lines 176-184: the loop of [Using] and the [return false] after it. *)
Fixpoint UsingLoop (m : gmap string string) (name : string)
    (regs : list Argument) : bool :=
  match regs with
  | [] => false
  | r :: rest =>
      if negb (String.eqb (Name r) name) then UsingLoop m name rest
      else if snd (commaOk m (Short r)) then true
      else UsingLoop m name rest
  end.

Definition Using (g : Globals) (name : string) : bool :=
  if lenMap (Args g) =? 0 then false
  else if snd (commaOk (Args g) name) then true
  else UsingLoop (Args g) name (registered g).

(** Lines 197-206: the loop of [Value] and the [return ""] after it. *)
Fixpoint ValueLoop (m : gmap string string) (name : string)
    (regs : list Argument) : string :=
  match regs with
  | [] => ""
  | r :: rest =>
      if negb (String.eqb (Name r) name) then ValueLoop m name rest
      else let '(val, ok) := commaOk m (Short r) in
           if ok then val else ValueLoop m name rest
  end.

Definition Value (g : Globals) (name : string) : string :=
  if lenMap (Args g) =? 0 then ""
  else let '(val, ok) := commaOk (Args g) name in
       if ok then val else ValueLoop (Args g) name (registered g).

(** ** [availableFlags] and [argNameMaxLen] *)

(** One iteration of the loop of [availableFlags], for the descriptor
    [arg] at index [a] of a slice of length [n]. *)
Definition availableFlagsBody (n a : Z) (arg : Argument) (flags : string)
  : string :=
  let flags :=
    if String.eqb (Short arg) "" then flags +:+ ("--" +:+ Name arg)
    else flags +:+ ("-" +:+ Short arg) in
  let flags := if ExpectsValue arg then flags +:+ "=" else flags in
  if negb (n - 1 =? a) then flags +:+ " " else flags.

Fixpoint availableFlagsLoop (n a : Z) (regs : list Argument) (flags : string)
  : string :=
  match regs with
  | [] => flags
  | arg :: rest =>
      availableFlagsLoop n (a + 1) rest (availableFlagsBody n a arg flags)
  end.

Definition availableFlags (g : Globals) : string :=
  availableFlagsLoop (lenSlice (registered g)) 0 (registered g) "".

Fixpoint argNameMaxLenLoop (regs : list Argument) (max : Z) : Z :=
  match regs with
  | [] => max
  | arg :: rest =>
      let argNameLen := lenString (Name arg) in
      if argNameLen <? max then argNameMaxLenLoop rest max
      else argNameMaxLenLoop rest (lenString (Name arg))
  end.

Definition argNameMaxLen (g : Globals) : Z :=
  argNameMaxLenLoop (registered g) 0.

(** ** [init] *)

(** [func init()]: the tokenizer runs once, on the invocation. *)
Definition init (osArgs : list string) (g : Globals) : Globals :=
  parseArgs osArgs g.

(** ** [PrintUsage] *)

Definition tab : string := String "009"%char "".
Definition newline : string := String "010"%char "".

(** Lines 70-106: the text built for one descriptor, [argumentUsage]. *)
Definition usageLine (maxArgNameLen : Z) (arg : Argument) : string :=
  let short := Short arg in
  let name := Name arg in
  let '(short, name) :=
    if ExpectsValue arg then (short +:+ "=", name +:+ "=")
    else (short +:+ " ", name +:+ " ") in
  let argumentUsage := tab in
  let argumentUsage :=
    if nonEmpty (Short arg) then argumentUsage +:+ (" -" +:+ short +:+ " ")
    else argumentUsage +:+ "    " in
  let argumentUsage := argumentUsage +:+ (tab +:+ " --" +:+ name +:+ " ") in
  let argNameLength := lenString (Name arg) in
  let argumentUsage :=
    if argNameLength <? maxArgNameLen
    then argumentUsage +:+ Repeat " " (maxArgNameLen - argNameLength)
    else argumentUsage in
  let argumentUsage := argumentUsage +:+ tab in
  let argumentUsage :=
    if nonEmpty (Description arg)
    then argumentUsage +:+ (" " +:+ Description arg)
    else argumentUsage in
  let argumentUsage :=
    if negb (lenSlice (Values arg) =? 0)
    then argumentUsage +:+ (" [" +:+ Join (Values arg) ", " +:+ "]")
    else argumentUsage in
  let argumentUsage :=
    if nonEmpty (DefaultValue arg)
    then argumentUsage +:+ (" [default=" +:+ DefaultValue arg +:+ "]")
    else argumentUsage in
  argumentUsage.

(** The loop of [PrintUsage] over the registered descriptors. *)
Fixpoint PrintUsageLoop (maxArgNameLen : Z) (regs : list Argument)
    (argumentsUsage : string) : string :=
  match regs with
  | [] => argumentsUsage
  | arg :: rest =>
      PrintUsageLoop maxArgNameLen rest
        (argumentsUsage +:+ (usageLine maxArgNameLen arg +:+ newline))
  end.

(** The text that [PrintUsage] hands to [fmt.Fprint], for the program
    path [prog] (that is [os.Args[0]]). *)
Definition usageText (prog : string) (g : Globals) : string :=
  let argumentsUsage :=
    "USAGE: " +:+ prog +:+ " " +:+ CustomUsage g +:+ " ["
      +:+ availableFlags g +:+ "]" +:+ newline +:+ "Options:" +:+ newline in
  let maxArgNameLen := argNameMaxLen g in
  PrintUsageLoop maxArgNameLen (registered g) argumentsUsage.

(** [fprintFails text] says whether [fmt.Fprint(os.Stderr, text)] returns
    an error.  Reading [os.Args[0]] in an empty [os.Args] is a run-time
    panic of Go. *)
Definition PrintUsage (osArgs : list string) (fprintFails : string -> bool)
  : Go unit :=
  fun g =>
    match osArgs with
    | [] =>
        (Panicked "runtime error: index out of range [0] with length 0", g)
    | prog :: _ =>
        if fprintFails (usageText prog g)
        then (Panicked "unable to write to stderr", g)
        else (Returned tt, g)
    end.

(** ** Vocabulary of the properties *)

(** The key and the value that one token of the invocation writes into
    the table: [keyValue[0]] and [keyValue[1]] of the stripped token when
    it has an [=], the stripped token and the empty string otherwise. *)
Definition tokenKey (a : string) : string :=
  let a := stripDashes a in
  if Contains a "=" then default a (head (Split a "=")) else a.

Definition tokenValue (a : string) : string :=
  let a := stripDashes a in
  if Contains a "=" then default "" (Split a "=" !! 1%nat) else "".

(** The tokens after the program path, folded into a table. *)
Definition tokenize (toks : list string) (m : gmap string string)
  : gmap string string :=
  foldl (fun m a => recordToken (stripDashes a) m) m toks.

(** A registered descriptor through which [name] resolves: it is called
    [name] and its shorthand is a key of the table. *)
Definition resolvesVia (m : gmap string string) (name : string)
    (r : Argument) : Prop :=
  Name r = name /\ is_Some (m !! Short r).

Global Instance resolvesVia_dec m name r : Decision (resolvesVia m name r).
Proof. unfold resolvesVia. apply _. Defined.

(** The resolution order in the words of the specification: nothing
    resolves in an empty table; otherwise [name] itself when it is a key;
    otherwise the shorthand of the first registered descriptor called
    [name] whose shorthand is a key. *)
Definition resolveKey (g : Globals) (name : string) : option string :=
  if decide (Args g = ∅) then None
  else if decide (is_Some (Args g !! name)) then Some name
  else (fun ir => Short ir.2) <$> list_find (resolvesVia (Args g) name) (registered g).

(** [r] stands in the way of registering [arg]. *)
Definition conflicts (arg r : Argument) : bool :=
  String.eqb (Name r) (Name arg) ||
  (nonEmpty (Short arg) && String.eqb (Short r) (Short arg)).

(** The three reasons for which the specification lets [Register] fail. *)
Definition registerRejects (arg : Argument) (regs : list Argument) : Prop :=
  (DefaultValue arg <> "" /\ ExpectsValue arg = false) \/
  (exists r, r ∈ regs /\ Name r = Name arg) \/
  (Short arg <> "" /\ exists r, r ∈ regs /\ Short r = Short arg).

(** The entry of one descriptor, in the words of the specification:
    [-shorthand] when there is a shorthand and [--name] otherwise,
    followed by [=] when a value is expected. *)
Definition flagEntry (arg : Argument) : string :=
  (if decide (Short arg = "") then "--" +:+ Name arg else "-" +:+ Short arg)
  +:+ (if ExpectsValue arg then "=" else "").

(** A descriptor with a name, a shorthand and the value flag only. *)
Definition flagArg (name short : string) (expects : bool) : Argument :=
  {| Name := name; Short := short; Description := ""; DefaultValue := "";
     Values := []; ExpectsValue := expects |}.

(** The globals after [Register] of [{Name:"a"}] and then of
    [{Name:"b", Short:"c", ExpectsValue:true}]. *)
Definition twoFlags : Globals :=
  (Register (flagArg "b" "c" true)
     (Register (flagArg "a" "" false) zeroGlobals).2).2.

(** The invocation [prog -- --foo=bar] after [Register] of [{Name:"foo"}]. *)
Definition emptyKeyAndFoo : Globals :=
  parseArgs ["prog"; "--"; "--foo=bar"]
    (Register (flagArg "foo" "" false) zeroGlobals).2.

(** The invocation [prog --=x] after [Register] of [{Name:"foo"}]. *)
Definition emptyKeyWithValue : Globals :=
  parseArgs ["prog"; "--=x"]
    (Register (flagArg "foo" "" false) zeroGlobals).2.

(** What [Register] keeps true of the registered sequence: the names are
    pairwise distinct, so are the shorthands that are not empty, and a
    descriptor with a default value expects a value. *)
Definition validRegistry (regs : list Argument) : Prop :=
  NoDup (Name <$> regs) /\
  NoDup (filter (fun s => s <> "") (Short <$> regs)) /\
  Forall (fun r => DefaultValue r <> "" -> ExpectsValue r = true) regs.

(** The parts of the line of one descriptor: the shorthand column, the
    name column with its padding, and what follows the last tab. *)
Definition valueMark (arg : Argument) : string :=
  if ExpectsValue arg then "=" else " ".

Definition shortColumn (arg : Argument) : string :=
  if decide (Short arg = "") then "    "
  else " -" +:+ Short arg +:+ valueMark arg +:+ " ".

Definition nameColumn (maxArgNameLen : Z) (arg : Argument) : string :=
  Name arg +:+ valueMark arg +:+ " "
    +:+ Repeat " " (maxArgNameLen - lenString (Name arg)).

Definition usageDetails (arg : Argument) : string :=
  (if decide (Description arg = "") then "" else " " +:+ Description arg)
  +:+ (match Values arg with
       | [] => ""
       | _ => " [" +:+ Join (Values arg) ", " +:+ "]"
       end)
  +:+ (if decide (DefaultValue arg = "") then ""
       else " [default=" +:+ DefaultValue arg +:+ "]").

Definition usageHeader (prog : string) (g : Globals) : string :=
  "USAGE: " +:+ prog +:+ " " +:+ CustomUsage g +:+ " ["
    +:+ availableFlags g +:+ "]" +:+ newline +:+ "Options:" +:+ newline.

(** [String.concat] with no separator. *)
Fixpoint concatStrings (l : list string) : string :=
  match l with
  | [] => ""
  | s :: rest => s +:+ concatStrings rest
  end.

(** * Properties *)

(** ** Facts about the string functions *)

Section StringFacts.

Lemma app_String (c : ascii) (s t : string) :
  String c s +:+ t = String c (s +:+ t).
Proof. reflexivity. Qed.

Lemma app_empty_l (t : string) : "" +:+ t = t.
Proof. reflexivity. Qed.

Lemma app_empty_r (s : string) : s +:+ "" = s.
Proof. induction s as [|c s IH]; [done|]. by rewrite app_String, IH. Qed.

Lemma app_assoc_str (s t u : string) : (s +:+ t) +:+ u = s +:+ (t +:+ u).
Proof.
  induction s as [|c s IH]; [done|]. by rewrite !app_String, IH.
Qed.

Lemma HasPrefix_empty (s : string) : HasPrefix s "" = true.
Proof. by destruct s. Qed.

Lemma HasPrefix_app (p rest : string) : HasPrefix (p +:+ rest) p = true.
Proof.
  induction p as [|c p IH]; [apply HasPrefix_empty|].
  rewrite app_String. simpl. by rewrite decide_True.
Qed.

Lemma HasPrefix_inv (s p : string) :
  HasPrefix s p = true -> exists rest, s = p +:+ rest.
Proof.
  revert s. induction p as [|c p IH]; intros s H.
  - by exists s.
  - destruct s as [|d s]; [done|]. simpl in H.
    destruct (decide (d = c)) as [->|]; [|done].
    destruct (IH _ H) as [rest ->]. by exists rest.
Qed.

Lemma sliceFrom_app (p rest : string) :
  sliceFrom (String.length p) (p +:+ rest) = rest.
Proof. induction p as [|c p IH]; [done|]. by rewrite app_String. Qed.

Lemma TrimPrefix_app (p rest : string) : TrimPrefix (p +:+ rest) p = rest.
Proof. unfold TrimPrefix. by rewrite HasPrefix_app, sliceFrom_app. Qed.

Lemma TrimPrefix_no_prefix (s p : string) :
  HasPrefix s p = false -> TrimPrefix s p = s.
Proof. unfold TrimPrefix. by intros ->. Qed.

Lemma Contains_HasPrefix (s p : string) :
  HasPrefix s p = true -> Contains s p = true.
Proof. intros H. destruct s; simpl in *; by rewrite H. Qed.

Lemma removeFirst_HasPrefix (s p : string) :
  HasPrefix s p = true -> removeFirst p s = TrimPrefix s p.
Proof.
  intros H. unfold TrimPrefix. rewrite H.
  destruct s; simpl in *; by rewrite H.
Qed.

End StringFacts.

(** ** Dash stripping (C1) *)

Lemma HasPrefix_dash_false_dashes (a : string) :
  HasPrefix a "-" = false -> HasPrefix a "--" = false.
Proof.
  destruct a as [|c a]; [done|]. simpl.
  destruct (decide (c = "-"%char)); [|done]. by destruct a.
Qed.

(** C1, as the claim words it: a token that contains a double dash loses
    the first occurrence of it wherever it lies, and [foo--bar] becomes
    [foobar]; a token with single dashes only loses its first dash.  The
    code does neither when the dash is not at the start: both tokens are
    kept whole, also as keys of the table. *)
Lemma stripDashes_not_removeFirst :
  Contains "foo--bar" "--" = true /\
  removeFirst "--" "foo--bar" = "foobar" /\
  stripDashes "foo--bar" = "foo--bar" /\
  stripDashes "foo--bar" <> removeFirst "--" "foo--bar" /\
  Contains "a-b" "--" = false /\ Contains "a-b" "-" = true /\
  removeFirst "-" "a-b" = "ab" /\
  stripDashes "a-b" = "a-b" /\
  Args (parseArgs ["prog"; "foo--bar"] zeroGlobals) !! "foobar" = None /\
  Args (parseArgs ["prog"; "foo--bar"] zeroGlobals) !! "foo--bar" = Some "".
Proof. repeat split; by vm_compute. Qed.

(** C1, amended: the stripping is anchored at the start of the token.  A
    token that starts with [--] loses exactly that leading [--] (which is
    then also its first occurrence); a token without [--] that starts with
    [-] loses exactly that leading dash; a token that does not start with
    a dash is left unchanged, wherever [--] or [-] occurs inside it. *)
Theorem stripDashes_prefix_anchored :
  (forall rest : string, stripDashes ("--" +:+ rest) = rest) /\
  (forall a : string,
     HasPrefix a "--" = true -> stripDashes a = removeFirst "--" a) /\
  (forall rest : string,
     Contains ("-" +:+ rest) "--" = false ->
     stripDashes ("-" +:+ rest) = rest) /\
  (forall a : string, HasPrefix a "-" = false -> stripDashes a = a).
Proof.
  split; [|split; [|split]].
  - intros rest. unfold stripDashes.
    rewrite (Contains_HasPrefix _ _ (HasPrefix_app "--" rest)).
    apply TrimPrefix_app.
  - intros a H. unfold stripDashes.
    by rewrite (Contains_HasPrefix _ _ H), removeFirst_HasPrefix.
  - intros rest H. unfold stripDashes. rewrite H.
    rewrite (Contains_HasPrefix _ _ (HasPrefix_app "-" rest)).
    apply TrimPrefix_app.
  - intros a H. unfold stripDashes.
    destruct (Contains a "--").
    + apply TrimPrefix_no_prefix. by apply HasPrefix_dash_false_dashes.
    + destruct (Contains a "-"); [|done]. by apply TrimPrefix_no_prefix.
Qed.

(** ** Splitting on one byte *)

Section SplitFacts.

Variable c : ascii.
Let sep : string := String c "".

Lemma splitFrom_nonempty (skip : nat) (s : string) :
  splitFrom sep skip s <> [].
Proof.
  unfold sep. revert skip. induction s as [|d s IH]; intros skip; [done|].
  destruct skip as [|k]; cbn [splitFrom HasPrefix]; [|apply IH].
  destruct (decide (d = c)); [by rewrite HasPrefix_empty|].
  by destruct (splitFrom (String c "") 0 s).
Qed.

(** The first piece is what precedes the first separator, and the
    other pieces are the pieces of what follows it. *)
Lemma Split_Cut (s : string) :
  Split s sep =
    let '(before, after, found) := Cut s sep in
    if found then before :: Split after sep else [before].
Proof.
  unfold Split, sep. induction s as [|d s IH]; [done|].
  cbn [splitFrom Cut HasPrefix String.length sliceFrom Nat.sub].
  destruct (decide (d = c)) as [->|Hne].
  - rewrite HasPrefix_empty. done.
  - rewrite IH. destruct (Cut s (String c "")) as [[before after] found].
    by destruct found.
Qed.

Lemma Contains_Cut (s : string) : Contains s sep = (Cut s sep).2.
Proof.
  unfold sep. induction s as [|d s IH]; [done|].
  cbn [Contains Cut HasPrefix].
  destruct (decide (d = c)) as [->|Hne].
  - by rewrite HasPrefix_empty.
  - rewrite IH. simpl. by destruct (Cut s (String c "")) as [[??]?].
Qed.

Lemma Cut_not_found (s : string) :
  Contains s sep = false -> Cut s sep = (s, "", false).
Proof.
  unfold sep. induction s as [|d s IH]; [done|].
  cbn [Contains Cut HasPrefix].
  destruct (decide (d = c)) as [->|Hne].
  - by rewrite HasPrefix_empty.
  - simpl. intros H. by rewrite (IH H).
Qed.

Lemma Cut_app (k rest : string) :
  Contains k sep = false -> Cut (k +:+ sep +:+ rest) sep = (k, rest, true).
Proof.
  unfold sep. induction k as [|d k IH].
  - intros _. change ("" +:+ String c "" +:+ rest) with (String c rest).
    cbn [Cut HasPrefix]. by rewrite decide_True, HasPrefix_empty.
  - cbn [Contains HasPrefix]. rewrite app_String. cbn [Cut HasPrefix].
    destruct (decide (d = c)) as [->|Hne].
    + by rewrite HasPrefix_empty.
    + simpl. intros H. by rewrite (IH H).
Qed.

End SplitFacts.

(** ** The table built by [parseArgs] *)

Lemma parseArgsLoop_tokenize (i : Z) (toks : list string)
    (m : gmap string string) :
  0 < i -> parseArgsLoop i toks m = tokenize toks m.
Proof.
  revert i m. induction toks as [|a toks IH]; intros i m Hi; [done|].
  cbn [parseArgsLoop tokenize foldl]. unfold parseArgsBody.
  destruct (Z.eqb_spec i 0) as [->|_]; [lia|].
  apply IH. lia.
Qed.

Lemma parseArgs_tokenize (prog : string) (toks : list string) (g : Globals) :
  Args (parseArgs (prog :: toks) g) = tokenize toks ∅.
Proof.
  unfold parseArgs, lenSlice. destruct toks as [|a toks]; [done|].
  destruct (Z.leb_spec (Z.of_nat (length (prog :: a :: toks))) 1) as [H|_].
  { simpl in H. lia. }
  cbn [setArgs Args].
  change (parseArgsLoop 0 (prog :: a :: toks) ∅)
    with (parseArgsLoop (0 + 1) (a :: toks) (∅ : gmap string string)).
  by apply parseArgsLoop_tokenize.
Qed.

Lemma parseArgs_no_token (g : Globals) :
  Args (parseArgs [] g) = ∅ /\ forall prog, Args (parseArgs [prog] g) = ∅.
Proof. done. Qed.

(** What the code writes for one stripped token, in terms of the cuts
    around its first and its second [=]. *)
Lemma recordToken_Cut (a : string) (m : gmap string string) :
  recordToken a m =
    let '(k, rest, found) := Cut a "=" in
    if found then <[k := (Cut rest "=").1.1]> m else <[a := ""]> m.
Proof.
  unfold recordToken. rewrite (Contains_Cut "="%char), (Split_Cut "="%char).
  destruct (Cut a "=") as [[k rest] found]. destruct found; [|done].
  cbn [snd]. rewrite (Split_Cut "="%char).
  destruct (Cut rest "=") as [[v rest'] found']. by destruct found'.
Qed.

Lemma recordToken_insert (a : string) (m : gmap string string) :
  recordToken (stripDashes a) m = <[tokenKey a := tokenValue a]> m.
Proof.
  rewrite recordToken_Cut. unfold tokenKey, tokenValue. cbv zeta.
  rewrite (Contains_Cut "="%char), (Split_Cut "="%char).
  destruct (Cut (stripDashes a) "=") as [[k rest] found].
  destruct found; [|done]. cbn [snd head default lookup list_lookup].
  rewrite (Split_Cut "="%char).
  destruct (Cut rest "=") as [[v rest'] found']. by destruct found'.
Qed.

Lemma tokenize_snoc (toks : list string) (a : string)
    (m : gmap string string) :
  tokenize (toks ++ [a]) m = <[tokenKey a := tokenValue a]> (tokenize toks m).
Proof. unfold tokenize. by rewrite foldl_app, <- recordToken_insert. Qed.

(** A key of the table holds the value of the last token that has it. *)
Lemma tokenize_lookup (toks : list string) (m : gmap string string)
    (k : string) :
  tokenize toks m !! k =
    match last (filter (fun t => tokenKey t = k) toks) with
    | Some t => Some (tokenValue t)
    | None => m !! k
    end.
Proof.
  induction toks as [|a toks IH] using rev_ind; [done|].
  rewrite tokenize_snoc, filter_app, filter_cons, filter_nil.
  destruct (decide (tokenKey a = k)) as [<-|Hne].
  - by rewrite last_snoc, lookup_insert_eq.
  - by rewrite app_nil_r, lookup_insert_ne.
Qed.

(** ** Splitting a token into key and value (C2) *)

(** The key is what precedes the first [=]; the value is what lies
    between the first [=] and the second one, or the end of the token. *)
Lemma recordToken_one_equals (k v : string) (m : gmap string string) :
  Contains k "=" = false -> Contains v "=" = false ->
  recordToken (k +:+ "=" +:+ v) m = <[k := v]> m.
Proof.
  intros Hk Hv. rewrite recordToken_Cut, (Cut_app "="%char k v Hk).
  by rewrite (Cut_not_found "="%char v Hv).
Qed.

Lemma recordToken_two_equals (k v rest : string) (m : gmap string string) :
  Contains k "=" = false -> Contains v "=" = false ->
  recordToken (k +:+ "=" +:+ v +:+ "=" +:+ rest) m = <[k := v]> m.
Proof.
  intros Hk Hv. rewrite recordToken_Cut, (Cut_app "="%char k _ Hk).
  by rewrite (Cut_app "="%char v rest Hv).
Qed.

(** C2 at the token [--a=b=c]: what follows the first [=] is [b=c], yet
    the table maps [a] to [b], the piece between the first two [=],
    because [strings.Split] cuts at every [=] and only the second piece
    is stored. *)
Theorem parseArgs_value_cut_at_second_equals (g : Globals) :
  Cut (stripDashes "--a=b=c") "=" = ("a", "b=c", true) /\
  Split (stripDashes "--a=b=c") "=" = ["a"; "b"; "c"] /\
  Args (parseArgs ["prog"; "--a=b=c"] g) !! "a" = Some "b" /\
  Args (parseArgs ["prog"; "--a=b=c"] g) !! "a" <> Some "b=c".
Proof.
  rewrite parseArgs_tokenize. repeat split; by vm_compute.
Qed.

(** ** Later tokens overwrite earlier ones (C8) *)

Lemma filter_none_of {A} (P : A -> Prop) `{forall x, Decision (P x)}
    (l : list A) :
  (forall x, x ∈ l -> ~ P x) -> filter P l = [].
Proof.
  induction l as [|x l IH]; intros Hl; [done|].
  rewrite filter_cons, decide_False by (apply Hl; left).
  apply IH. intros y Hy. apply Hl. by right.
Qed.

(** C8: when two tokens of the invocation have the same key and no token
    after the later one has it, the table maps that key to the value of
    the later token; and no key is listed twice in the table. *)
Theorem parseArgs_last_write_wins (prog : string)
    (before middle after : list string) (t1 t2 : string) (g : Globals) :
  tokenKey t1 = tokenKey t2 ->
  (forall t, t ∈ after -> tokenKey t <> tokenKey t2) ->
  let table :=
    Args (parseArgs (prog :: before ++ t1 :: middle ++ t2 :: after) g) in
  table !! tokenKey t1 = Some (tokenValue t2) /\
  NoDup (map_to_list table).*1.
Proof.
  intros Hkey Hafter table. split; [|apply NoDup_fst_map_to_list].
  subst table. rewrite parseArgs_tokenize, tokenize_lookup, Hkey.
  replace (before ++ t1 :: middle ++ t2 :: after)
    with ((before ++ t1 :: middle) ++ t2 :: after)
    by (by rewrite <- app_assoc).
  rewrite (filter_app _ (before ++ t1 :: middle)), (filter_cons _ t2).
  rewrite decide_True by done.
  rewrite (filter_none_of _ after) by done.
  by rewrite last_snoc.
Qed.

Lemma parseArgs_last_write_wins_witness :
  Args (parseArgs ("prog" :: [] ++ "--k=1" :: ["-x"] ++ "-k=2" :: ["--y"])
          zeroGlobals) !! tokenKey "--k=1" = Some (tokenValue "-k=2") /\
  NoDup (map_to_list
           (Args (parseArgs ("prog" :: [] ++ "--k=1" :: ["-x"] ++ "-k=2" :: ["--y"])
                    zeroGlobals))).*1.
Proof.
  apply (parseArgs_last_write_wins "prog" [] ["-x"] ["--y"] "--k=1" "-k=2").
  - reflexivity.
  - intros t Ht. apply list_elem_of_singleton in Ht. subst t. by vm_compute.
Defined.

(** ** Presence and value queries (C3, C4) *)

Lemma lenMap_zero (m : gmap string string) : (lenMap m =? 0) = true <-> m = ∅.
Proof.
  unfold lenMap. rewrite Z.eqb_eq, <- map_size_empty_iff. lia.
Qed.

Lemma commaOk_spec (m : gmap string string) (k : string) :
  commaOk m k = (default "" (m !! k), bool_decide (is_Some (m !! k))).
Proof. unfold commaOk. by destruct (m !! k). Qed.

Lemma UsingLoop_find (m : gmap string string) (name : string)
    (regs : list Argument) :
  UsingLoop m name regs =
    bool_decide (is_Some (list_find (resolvesVia m name) regs)).
Proof.
  induction regs as [|r regs IH].
  { done. }
  cbn [UsingLoop list_find]. rewrite commaOk_spec. cbn [snd].
  destruct (String.eqb_spec (Name r) name) as [Hn|Hn]; cbn [negb].
  - destruct (decide (is_Some (m !! Short r))) as [Hs|Hs].
    + rewrite (bool_decide_eq_true_2 _ Hs), decide_True by done.
      by rewrite bool_decide_eq_true_2.
    + rewrite (bool_decide_eq_false_2 _ Hs), decide_False by (by intros [_ ?]).
      rewrite IH. apply bool_decide_ext. by rewrite fmap_is_Some.
  - rewrite decide_False by (by intros [? _]).
    rewrite IH. apply bool_decide_ext. by rewrite fmap_is_Some.
Qed.

Lemma ValueLoop_find (m : gmap string string) (name : string)
    (regs : list Argument) :
  ValueLoop m name regs =
    match list_find (resolvesVia m name) regs with
    | Some ir => default "" (m !! Short ir.2)
    | None => ""
    end.
Proof.
  induction regs as [|r regs IH]; [done|].
  cbn [ValueLoop list_find]. rewrite commaOk_spec.
  destruct (String.eqb_spec (Name r) name) as [Hn|Hn]; cbn [negb].
  - destruct (decide (is_Some (m !! Short r))) as [Hs|Hs].
    + by rewrite (bool_decide_eq_true_2 _ Hs), decide_True.
    + rewrite (bool_decide_eq_false_2 _ Hs), decide_False by (by intros [_ ?]).
      rewrite IH. by destruct (list_find _ regs) as [[i r']|].
  - rewrite decide_False by (by intros [? _]).
    rewrite IH. by destruct (list_find _ regs) as [[i r']|].
Qed.

Lemma list_find_is_Some_exists {A} (P : A -> Prop) `{forall x, Decision (P x)}
    (l : list A) :
  is_Some (list_find P l) <-> exists x, x ∈ l /\ P x.
Proof.
  split.
  - intros [[i x] Hx]. apply list_find_Some in Hx as (Hi & HP & _).
    exists x. split; [|done]. by eapply list_elem_of_lookup_2.
  - intros (x & Hx & HP). by eapply list_find_elem_of.
Qed.

(** C3: [Using name] is true exactly when the table is not empty and
    either [name] is a key of it, or a registered descriptor called
    [name] has its shorthand among the keys; in particular it is false on
    an empty table, whatever is registered. *)
Theorem Using_iff (g : Globals) (name : string) :
  (Using g name = true <->
     Args g <> ∅ /\
     (is_Some (Args g !! name) \/
      exists r, r ∈ registered g /\ Name r = name /\
                is_Some (Args g !! Short r))) /\
  (Args g = ∅ -> Using g name = false).
Proof.
  assert (Hempty : Args g = ∅ -> Using g name = false).
  { intros H. unfold Using. by rewrite (proj2 (lenMap_zero _) H). }
  split; [|done]. unfold Using.
  destruct (lenMap (Args g) =? 0) eqn:Hlen.
  { apply lenMap_zero in Hlen. split; [done|]. by intros [? _]. }
  assert (Args g <> ∅) as Hne.
  { intros H. apply lenMap_zero in H. congruence. }
  rewrite commaOk_spec. cbn [snd].
  destruct (decide (is_Some (Args g !! name))) as [Hs|Hs].
  - rewrite (bool_decide_eq_true_2 _ Hs). split; [|done]. intros _. auto.
  - rewrite (bool_decide_eq_false_2 _ Hs), UsingLoop_find.
    rewrite bool_decide_eq_true, list_find_is_Some_exists.
    unfold resolvesVia. split.
    + intros (r & Hr & Hn & Hk). split; [done|]. right. eauto.
    + intros [_ [?|(r & Hr & Hn & Hk)]]; [done|]. eauto.
Qed.

Lemma resolveKey_is_key (g : Globals) (name k : string) :
  resolveKey g name = Some k -> is_Some (Args g !! k).
Proof.
  unfold resolveKey. repeat case_decide; [done|naive_solver|].
  destruct (list_find _ _) as [[i r]|] eqn:Hfind; [|done].
  intros [= <-]. by apply list_find_Some in Hfind as (_ & [_ ?] & _).
Qed.

Lemma Using_resolveKey (g : Globals) (name : string) :
  Using g name = bool_decide (is_Some (resolveKey g name)).
Proof.
  unfold Using, resolveKey. destruct (lenMap (Args g) =? 0) eqn:Hlen.
  { apply lenMap_zero in Hlen. by rewrite decide_True. }
  rewrite decide_False by (intros H; apply lenMap_zero in H; congruence).
  rewrite commaOk_spec. cbn [snd].
  destruct (decide (is_Some (Args g !! name))) as [Hs|Hs].
  - by rewrite (bool_decide_eq_true_2 _ Hs).
  - rewrite (bool_decide_eq_false_2 _ Hs), UsingLoop_find.
    apply bool_decide_ext. by rewrite fmap_is_Some.
Qed.

Lemma Value_resolveKey (g : Globals) (name : string) :
  Value g name =
    match resolveKey g name with
    | Some k => default "" (Args g !! k)
    | None => ""
    end.
Proof.
  unfold Value, resolveKey. destruct (lenMap (Args g) =? 0) eqn:Hlen.
  { apply lenMap_zero in Hlen. by rewrite decide_True. }
  rewrite decide_False by (intros H; apply lenMap_zero in H; congruence).
  rewrite commaOk_spec.
  destruct (decide (is_Some (Args g !! name))) as [Hs|Hs].
  - by rewrite (bool_decide_eq_true_2 _ Hs).
  - rewrite (bool_decide_eq_false_2 _ Hs), ValueLoop_find.
    by destruct (list_find _ _) as [[i r]|].
Qed.

(** C4: [Value name] follows the resolution order of [Using] (the key
    [name] itself first, then the shorthand of a registered descriptor
    called [name]) and returns the value stored under the key that
    resolves; it returns the empty string on an empty table and whenever
    nothing resolves, that is, whenever [Using name] is false. *)
Theorem Value_resolution (g : Globals) (name : string) :
  Value g name =
    match resolveKey g name with
    | Some k => default "" (Args g !! k)
    | None => ""
    end /\
  Using g name = bool_decide (is_Some (resolveKey g name)) /\
  (Args g = ∅ -> Value g name = "") /\
  (forall v, Args g !! name = Some v -> Value g name = v) /\
  (Using g name = false -> Value g name = "").
Proof.
  pose proof (Value_resolveKey g name) as Hres.
  split; [done|]. split; [apply Using_resolveKey|]. split; [|split].
  - intros H. rewrite Hres. unfold resolveKey. by rewrite decide_True.
  - intros v Hv. rewrite Hres. unfold resolveKey.
    rewrite decide_False by (intros H; by rewrite H, lookup_empty in Hv).
    rewrite decide_True by (by rewrite Hv). by rewrite Hv.
  - rewrite Using_resolveKey, bool_decide_eq_false. intros Hnone.
    rewrite Hres. destruct (resolveKey g name); [|done].
    destruct Hnone. by eexists.
Qed.

(** ** Registration (C5, C10) *)

Lemma bind_returned {A B} (c : Go A) (k : A -> Go B) (g g' : Globals) (a : A) :
  c g = (Returned a, g') -> bind c k g = k a g'.
Proof. unfold bind. by intros ->. Qed.

Lemma bind_panicked {A B} (c : Go A) (k : A -> Go B) (g g' : Globals)
    (msg : string) :
  c g = (Panicked msg, g') -> bind c k g = (Panicked msg, g').
Proof. unfold bind. by intros ->. Qed.

Lemma nonEmpty_true (s : string) : nonEmpty s = true <-> s <> "".
Proof.
  unfold nonEmpty. destruct (String.eqb_spec s ""); naive_solver.
Qed.

Lemma conflicts_true (arg r : Argument) :
  conflicts arg r = true <->
  Name r = Name arg \/ (Short arg <> "" /\ Short r = Short arg).
Proof.
  unfold conflicts.
  rewrite orb_true_iff, andb_true_iff, nonEmpty_true, !String.eqb_eq.
  done.
Qed.

Lemma registerCheck_outcome (arg r : Argument) (g : Globals) :
  if conflicts arg r
  then exists msg, registerCheck arg r g = (Panicked msg, g)
  else registerCheck arg r g = (Returned tt, g).
Proof.
  unfold conflicts, registerCheck, bind, when, panic, ret.
  destruct (String.eqb (Name r) (Name arg)); cbn [orb]; [by eexists|].
  destruct (nonEmpty (Short arg) && String.eqb (Short r) (Short arg));
    [by eexists|done].
Qed.

(** The loop of [Register] only reads: it ends in the state it started
    in, and panics exactly when a registered descriptor conflicts. *)
Lemma forRange_registerCheck (arg : Argument) (regs : list Argument)
    (g : Globals) :
  if existsb (conflicts arg) regs
  then exists msg, forRange regs (registerCheck arg) g = (Panicked msg, g)
  else forRange regs (registerCheck arg) g = (Returned tt, g).
Proof.
  induction regs as [|r regs IH]; [done|].
  cbn [existsb forRange].
  pose proof (registerCheck_outcome arg r g) as Hr.
  destruct (conflicts arg r); cbn [orb].
  - destruct Hr as [msg Hr]. exists msg. by apply bind_panicked.
  - by rewrite !(bind_returned _ _ _ _ _ Hr).
Qed.

Lemma Register_outcome (arg : Argument) (g : Globals) :
  if (nonEmpty (DefaultValue arg) && negb (ExpectsValue arg))
     || existsb (conflicts arg) (registered g)
  then exists msg, Register arg g = (Panicked msg, g)
  else Register arg g =
         (Returned tt, setRegistered (registered g ++ [arg]) g).
Proof.
  unfold Register, bind, when, gets, modify, panic, ret.
  destruct (nonEmpty (DefaultValue arg) && negb (ExpectsValue arg));
    cbn [orb]; [by eexists|].
  pose proof (forRange_registerCheck arg (registered g) g) as Hloop.
  destruct (existsb (conflicts arg) (registered g)).
  - destruct Hloop as [msg ->]. by eexists.
  - by rewrite Hloop.
Qed.

Lemma registerRejects_bool (arg : Argument) (regs : list Argument) :
  (nonEmpty (DefaultValue arg) && negb (ExpectsValue arg))
  || existsb (conflicts arg) regs = true <->
  registerRejects arg regs.
Proof.
  unfold registerRejects.
  rewrite orb_true_iff, andb_true_iff, nonEmpty_true, negb_true_iff.
  rewrite existsb_exists. setoid_rewrite conflicts_true.
  setoid_rewrite <- list_elem_of_In. split.
  - intros [H|(r & Hr & [Hn|[Hs Hs']])];
      [by left|right; left; eauto|right; right; eauto].
  - intros [H|[(r & Hr & Hn)|[Hs (r & Hr & Hs')]]];
      [by left|right; exists r; auto|right; exists r; auto].
Qed.

(** C5: [Register arg] panics exactly when [arg] has a default value
    without expecting a value, or its name is the name of a registered
    descriptor, or its shorthand is not empty and is the shorthand of a
    registered descriptor; in every other case it returns, and the
    registered sequence is the former one followed by [arg]. *)
Theorem Register_panics_iff (arg : Argument) (g : Globals) :
  ((exists msg, (Register arg g).1 = Panicked msg) <->
     registerRejects arg (registered g)) /\
  (~ registerRejects arg (registered g) ->
     (Register arg g).1 = Returned tt /\
     registered (Register arg g).2 = registered g ++ [arg] /\
     Args (Register arg g).2 = Args g).
Proof.
  pose proof (Register_outcome arg g) as Hout.
  pose proof (registerRejects_bool arg (registered g)) as Hrej.
  destruct (_ || _).
  - destruct Hout as [msg ->]. split.
    + split; [intros _; by apply Hrej|intros _; by eexists].
    + intros Hno. destruct Hno. by apply Hrej.
  - rewrite Hout. split.
    + split; [by intros [msg ?]|]. intros H. apply Hrej in H. done.
    + intros _. by repeat split.
Qed.

(** C10: a call of [Register] that panics leaves the globals, and so the
    registered sequence, exactly as they were before the call. *)
Theorem Register_panic_keeps_registry (arg : Argument) (g : Globals)
    (msg : string) :
  (Register arg g).1 = Panicked msg ->
  (Register arg g).2 = g /\
  registered (Register arg g).2 = registered g.
Proof.
  pose proof (Register_outcome arg g) as Hout.
  destruct (_ || _).
  - destruct Hout as [msg' ->]. done.
  - rewrite Hout. done.
Qed.

Lemma Register_panic_keeps_registry_witness :
  (Register (flagArg "a" "x" false) twoFlags).2 = twoFlags /\
  registered (Register (flagArg "a" "x" false) twoFlags).2
    = registered twoFlags.
Proof.
  apply (Register_panic_keeps_registry (flagArg "a" "x" false) twoFlags
           "--a is already a registred argument").
  reflexivity.
Defined.

(** ** The one-line summary of the flags (C6) *)

Lemma availableFlagsBody_entry (n a : Z) (arg : Argument) (flags : string) :
  availableFlagsBody n a arg flags =
    flags +:+ flagEntry arg +:+ (if decide (n - 1 = a) then "" else " ").
Proof.
  unfold availableFlagsBody, flagEntry.
  destruct (String.eqb_spec (Short arg) "") as [Hs|Hs];
    [rewrite decide_True by done|rewrite decide_False by done];
    destruct (ExpectsValue arg);
    destruct (Z.eqb_spec (n - 1) a);
    [rewrite decide_True by done|rewrite decide_False by done
    |rewrite decide_True by done|rewrite decide_False by done
    |rewrite decide_True by done|rewrite decide_False by done
    |rewrite decide_True by done|rewrite decide_False by done];
    cbn [negb]; by rewrite ?app_assoc_str, ?app_empty_r.
Qed.

Lemma availableFlagsLoop_Join (n a : Z) (regs : list Argument)
    (flags : string) :
  n = a + lenSlice regs ->
  availableFlagsLoop n a regs flags = flags +:+ Join (map flagEntry regs) " ".
Proof.
  revert a flags. induction regs as [|arg regs IH]; intros a flags Hn.
  { simpl. by rewrite app_empty_r. }
  cbn [availableFlagsLoop]. unfold lenSlice in *. cbn [length] in Hn.
  rewrite IH by lia. rewrite availableFlagsBody_entry.
  destruct regs as [|arg' regs].
  - rewrite decide_True by (cbn [length] in Hn; lia).
    cbn [map Join]. by rewrite !app_empty_r.
  - rewrite decide_False by (cbn [length] in Hn; lia).
    cbn [map Join]. by rewrite !app_assoc_str.
Qed.

(** C6: over the descriptors [{Name:"a"}] and
    [{Name:"b", Short:"c", ExpectsValue:true}] the summary is [--a -c=];
    in general it is the entries of the descriptors, in registration
    order, joined by single spaces (so with no space after the last). *)
Theorem availableFlags_Join :
  registered twoFlags = [flagArg "a" "" false; flagArg "b" "c" true] /\
  availableFlags twoFlags = "--a -c=" /\
  forall g : Globals,
    availableFlags g = Join (map flagEntry (registered g)) " ".
Proof.
  split; [done|]. split; [done|]. intros g. unfold availableFlags.
  rewrite availableFlagsLoop_Join by lia. done.
Qed.

(** ** The longest registered name (C7) *)

Lemma argNameMaxLenLoop_foldl (regs : list Argument) (max : Z) :
  argNameMaxLenLoop regs max =
    foldl (fun acc arg => Z.max acc (lenString (Name arg))) max regs.
Proof.
  revert max. induction regs as [|arg regs IH]; intros max; [done|].
  cbn [argNameMaxLenLoop foldl].
  destruct (Z.ltb_spec (lenString (Name arg)) max) as [Hlt|Hge]; rewrite IH.
  - by rewrite Z.max_l by lia.
  - by rewrite Z.max_r by lia.
Qed.

Lemma argNameMaxLenLoop_bounds (regs : list Argument) (max : Z) :
  max <= argNameMaxLenLoop regs max /\
  (forall r, r ∈ regs -> lenString (Name r) <= argNameMaxLenLoop regs max) /\
  (argNameMaxLenLoop regs max = max \/
   exists r, r ∈ regs /\ argNameMaxLenLoop regs max = lenString (Name r)).
Proof.
  revert max. induction regs as [|arg regs IH]; intros max.
  { split; [done|]. split; [by intros r ?%elem_of_nil|by left]. }
  cbn [argNameMaxLenLoop].
  destruct (Z.ltb_spec (lenString (Name arg)) max) as [Hlt|Hge].
  - destruct (IH max) as (Hmax & Hall & Hsome). split; [done|]. split.
    + intros r [->|Hr]%elem_of_cons; [lia|by apply Hall].
    + destruct Hsome as [?|(r & Hr & ?)]; [by left|].
      right. exists r. split; [by right|done].
  - destruct (IH (lenString (Name arg))) as (Hmax & Hall & Hsome).
    split; [lia|]. split.
    + intros r [->|Hr]%elem_of_cons; [done|by apply Hall].
    + right. destruct Hsome as [?|(r & Hr & ?)].
      * exists arg. split; [by left|done].
      * exists r. split; [by right|done].
Qed.

Lemma foldl_max_foldr (regs : list Argument) (acc : Z) :
  0 <= acc ->
  foldl (fun acc arg => Z.max acc (lenString (Name arg))) acc regs =
    Z.max acc (foldr Z.max 0 (map (fun r => lenString (Name r)) regs)).
Proof.
  revert acc. induction regs as [|arg regs IH]; intros acc Hacc;
    cbn [foldl foldr map].
  - by rewrite Z.max_l.
  - rewrite IH by lia. by rewrite Z.max_assoc.
Qed.

(** C7: [argNameMaxLen] is the length of the longest registered name:
    0 when nothing is registered and otherwise the length of a registered
    name that no registered name exceeds; it is the maximum of the name
    lengths, although the loop compares with a strict [<]. *)
Theorem argNameMaxLen_longest (g : Globals) :
  argNameMaxLen g =
    foldr Z.max 0 (map (fun r => lenString (Name r)) (registered g)) /\
  (registered g = [] -> argNameMaxLen g = 0) /\
  (forall r, r ∈ registered g -> lenString (Name r) <= argNameMaxLen g) /\
  (registered g <> [] ->
   exists r, r ∈ registered g /\ argNameMaxLen g = lenString (Name r)).
Proof.
  unfold argNameMaxLen.
  destruct (argNameMaxLenLoop_bounds (registered g) 0) as (H0 & Hall & Hsome).
  split; [|split; [|split]].
  - rewrite argNameMaxLenLoop_foldl, foldl_max_foldr by done.
    apply Z.max_r. clear.
    induction (registered g) as [|arg regs IH]; cbn [foldr map]; lia.
  - by intros ->.
  - done.
  - intros Hne. destruct Hsome as [Hzero|?]; [|done].
    destruct (registered g) as [|arg regs]; [done|].
    exists arg. split; [by left|].
    pose proof (Hall arg ltac:(by left)) as Hle. unfold lenString in *. lia.
Qed.

(** ** The empty key (C9) *)

(** Successful registrations keep the registered names distinct. *)
Lemma Register_names_unique (arg : Argument) (g : Globals) :
  NoDup (Name <$> registered g) ->
  (Register arg g).1 = Returned tt ->
  NoDup (Name <$> registered (Register arg g).2).
Proof.
  intros Hnd Hret. pose proof (Register_outcome arg g) as Hout.
  destruct (_ || _) eqn:Hbad.
  { destruct Hout as [msg Hout]. by rewrite Hout in Hret. }
  rewrite Hout. cbn [snd setRegistered registered].
  apply orb_false_iff in Hbad as [_ Hnone].
  rewrite fmap_app. apply NoDup_app. split; [done|]. split.
  - intros n Hn [->|[]%elem_of_nil]%elem_of_cons.
    apply list_elem_of_fmap in Hn as (r & Hname & Hr).
    assert (existsb (conflicts arg) (registered g) = true); [|congruence].
    apply existsb_exists. exists r. split; [by apply list_elem_of_In|].
    apply conflicts_true. by left.
  - apply NoDup_singleton.
Qed.

Lemma unique_name_same (regs : list Argument) (r r' : Argument) :
  NoDup (Name <$> regs) -> r ∈ regs -> r' ∈ regs -> Name r = Name r' ->
  r = r'.
Proof.
  induction regs as [|x regs IH]; [by intros _ ?%elem_of_nil|].
  rewrite fmap_cons, NoDup_cons.
  intros [Hx Hnd] [->|Hr]%elem_of_cons [->|Hr']%elem_of_cons Hname;
    [done| | |by apply IH].
  - destruct Hx. rewrite Hname. by apply list_elem_of_fmap_2.
  - destruct Hx. rewrite <- Hname. by apply list_elem_of_fmap_2.
Qed.

(** C9, as the claim words it: with the empty key in the table and a
    registered descriptor called [foo] whose shorthand is empty,
    [Value "foo"] would be the value of the empty key.  Here the empty key
    holds the empty string, yet [Value "foo"] is [bar]: [foo] is itself
    a key, and the key [name] is looked up first. *)
Lemma Value_not_empty_key_value :
  Args emptyKeyAndFoo !! "" = Some "" /\
  registered emptyKeyAndFoo = [flagArg "foo" "" false] /\
  Name (flagArg "foo" "" false) = "foo" /\
  Short (flagArg "foo" "" false) = "" /\
  Using emptyKeyAndFoo "foo" = true /\
  Value emptyKeyAndFoo "foo" = "bar" /\
  Value emptyKeyAndFoo "foo" <> "".
Proof. repeat split; by vm_compute. Qed.

(** C9, amended: a token that is only [--] or [-] puts the empty key with
    the empty value into the table.  Whenever the table has the empty key
    and a registered descriptor called [name] has the empty shorthand,
    [Using name] is true, and [Value name] is the value stored under
    [name] when [name] is itself a key, and the value of the empty key
    otherwise (the registered names being distinct, as [Register] keeps
    them). *)
Theorem empty_key_resolves_empty_short (g : Globals) (name : string)
    (r : Argument) (v : string) :
  Args g !! "" = Some v ->
  r ∈ registered g -> Name r = name -> Short r = "" ->
  NoDup (Name <$> registered g) ->
  (forall prog g0,
     Args (parseArgs [prog; "--"] g0) = {[ "" := "" ]} /\
     Args (parseArgs [prog; "-"] g0) = {[ "" := "" ]}) /\
  Using g name = true /\
  Value g name = default v (Args g !! name).
Proof.
  intros Hempty Hr Hname Hshort Hnd. split; [done|].
  assert (Hvia : resolvesVia (Args g) name r).
  { split; [done|]. rewrite Hshort, Hempty. by eexists. }
  assert (Hne : Args g <> ∅).
  { intros H. by rewrite H, lookup_empty in Hempty. }
  rewrite Using_resolveKey, Value_resolveKey. unfold resolveKey.
  rewrite decide_False by done.
  destruct (Args g !! name) as [w|] eqn:Hw.
  - rewrite decide_True by (by eexists). cbn [fmap option_fmap option_map].
    split; [by apply bool_decide_eq_true_2|]. by rewrite Hw.
  - rewrite decide_False by (by intros [? ?]).
    destruct (list_find_elem_of _ _ _ Hr Hvia) as [[i r'] Hfind].
    rewrite Hfind. cbn [fmap option_fmap option_map snd default].
    split; [by apply bool_decide_eq_true_2|].
    apply list_find_Some in Hfind as (Hi & [Hname' _] & _).
    assert (r' = r) as ->.
    { apply (unique_name_same (registered g)); [done| |done|congruence].
      by eapply list_elem_of_lookup_2. }
    by rewrite Hshort, Hempty.
Qed.

Lemma empty_key_resolves_empty_short_witness :
  (forall prog g0,
     Args (parseArgs [prog; "--"] g0) = {[ "" := "" ]} /\
     Args (parseArgs [prog; "-"] g0) = {[ "" := "" ]}) /\
  Using emptyKeyWithValue "foo" = true /\
  Value emptyKeyWithValue "foo" = default "x" (Args emptyKeyWithValue !! "foo").
Proof.
  apply (empty_key_resolves_empty_short emptyKeyWithValue "foo"
           (flagArg "foo" "" false) "x").
  - reflexivity.
  - left.
  - reflexivity.
  - reflexivity.
  - apply (bool_decide_unpack _). vm_compute. exact I.
Defined.

(** * Further properties of the code *)

(** ** The tokenizer and the queries *)

Lemma parseArgs_eq (prog : string) (toks : list string) (g : Globals) :
  parseArgs (prog :: toks) g = setArgs (tokenize toks ∅) g.
Proof.
  pose proof (parseArgs_tokenize prog toks g) as Htab.
  unfold parseArgs in *. destruct (lenSlice (prog :: toks) <=? 1);
    cbn [setArgs Args registered CustomUsage] in *;
    [by rewrite <- Htab|by rewrite Htab].
Qed.

Lemma parseArgs_tail (osArgs : list string) (g : Globals) :
  Args (parseArgs osArgs g) = tokenize (tail osArgs) ∅.
Proof.
  destruct osArgs as [|prog toks]; [done|]. apply parseArgs_tokenize.
Qed.

Lemma query_direct_key (g : Globals) (name v : string) :
  Args g !! name = Some v -> Using g name = true /\ Value g name = v.
Proof.
  intros Hv. rewrite Using_resolveKey, Value_resolveKey. unfold resolveKey.
  rewrite decide_False by (intros H; by rewrite H, lookup_empty in Hv).
  rewrite decide_True by (by rewrite Hv). rewrite Hv.
  split; [by apply bool_decide_eq_true_2|done].
Qed.

Lemma query_no_descriptor (g : Globals) (name : string) :
  (forall r, r ∈ registered g -> Name r <> name) ->
  Using g name = bool_decide (is_Some (Args g !! name)) /\
  Value g name = default "" (Args g !! name).
Proof.
  intros Hnone. rewrite Using_resolveKey, Value_resolveKey. unfold resolveKey.
  assert (list_find (resolvesVia (Args g) name) (registered g) = None) as ->.
  { apply list_find_None, Forall_forall. intros r Hr [Hn _]. by apply (Hnone r). }
  destruct (decide (Args g = ∅)) as [Hempty|_].
  { rewrite Hempty, lookup_empty. done. }
  destruct (decide (is_Some (Args g !! name))) as [[v Hv]|Hno].
  - rewrite Hv. split; [|done].
    rewrite bool_decide_eq_true_2 by (by eexists).
    by rewrite bool_decide_eq_true_2 by (by eexists).
  - split.
    + rewrite (bool_decide_eq_false_2 _ Hno).
      by apply bool_decide_eq_false_2; intros [? ?].
    + destruct (Args g !! name) eqn:Hv; [|done]. destruct Hno. by eexists.
Qed.

Lemma last_filter_is_Some {A} (P : A -> Prop) `{forall x, Decision (P x)}
    (l : list A) :
  is_Some (last (filter P l)) <-> exists x, x ∈ l /\ P x.
Proof.
  rewrite last_is_Some. split.
  - intros Hne. destruct (filter P l) as [|x l'] eqn:Hf; [done|].
    exists x. apply and_comm, (list_elem_of_filter P). rewrite Hf. by left.
  - intros (x & Hx & HP) Hf.
    assert (x ∈ filter P l) as Hin by (by apply list_elem_of_filter).
    rewrite Hf in Hin. by apply elem_of_nil in Hin.
Qed.

Lemma tokenize_is_key (toks : list string) (k : string) :
  is_Some (tokenize toks ∅ !! k) <-> k ∈ tokenKey <$> toks.
Proof.
  rewrite tokenize_lookup, list_elem_of_fmap.
  pose proof (last_filter_is_Some (fun t => tokenKey t = k) toks) as Hlast.
  destruct (last (filter _ toks)) as [t|] eqn:Ht.
  - split; [|by eexists]. intros _.
    destruct (proj1 Hlast) as (x & Hx & Hk); [by eexists|]. by exists x.
  - rewrite lookup_empty. split; [by intros [? ?]|].
    intros (x & Hk & Hx). destruct (proj2 Hlast) as [? ?]; [|done].
    by exists x.
Qed.

Lemma tokenize_size (toks : list string) :
  (size (tokenize toks ∅) <= length toks)%nat.
Proof.
  induction toks as [|a toks IH] using rev_ind.
  { cbn [tokenize foldl length]. by rewrite map_size_empty. }
  rewrite tokenize_snoc, length_app, map_size_insert. cbn [length].
  destruct (tokenize toks ∅ !! tokenKey a); unfold id; lia.
Qed.

(** X1: an invocation with nothing after the program path (or with no
    program path at all) gives the empty table, and then no name is in
    use and every value is empty, whatever is registered. *)
Theorem parseArgs_no_arguments (osArgs : list string) (g : Globals)
    (name : string) :
  (length osArgs <= 1)%nat ->
  Args (parseArgs osArgs g) = ∅ /\
  Using (parseArgs osArgs g) name = false /\
  Value (parseArgs osArgs g) name = "".
Proof.
  intros Hlen.
  assert (Args (parseArgs osArgs g) = ∅) as Hempty.
  { destruct osArgs as [|prog [|a toks]]; [done|done|]. simpl in Hlen. lia. }
  split; [done|]. unfold Using, Value.
  by rewrite (proj2 (lenMap_zero _) Hempty).
Qed.

Lemma parseArgs_no_arguments_witness :
  Args (parseArgs ["prog"] twoFlags) = ∅ /\
  Using (parseArgs ["prog"] twoFlags) "a" = false /\
  Value (parseArgs ["prog"] twoFlags) "a" = "".
Proof.
  apply (parseArgs_no_arguments ["prog"] twoFlags "a"). simpl. lia.
Defined.

(** X2: the keys of the table are exactly the keys of the tokens that
    follow the program path: every such token is recorded, positional
    words included, and nothing else is; so the table has at most as
    many entries as there are tokens. *)
Theorem parseArgs_keys (osArgs : list string) (g : Globals) (k : string) :
  (is_Some (Args (parseArgs osArgs g) !! k) <->
     k ∈ tokenKey <$> tail osArgs) /\
  (size (Args (parseArgs osArgs g)) <= length (tail osArgs))%nat.
Proof.
  rewrite parseArgs_tail. split; [apply tokenize_is_key|apply tokenize_size].
Qed.

(** X3: right after [init], with nothing registered yet, a name is in
    use exactly when it is the key of some token, and its value is the
    value of the last token with that key (the empty string when there
    is none). *)
Theorem init_queries (osArgs : list string) (name : string) :
  Using (init osArgs zeroGlobals) name =
    bool_decide (name ∈ tokenKey <$> tail osArgs) /\
  Value (init osArgs zeroGlobals) name =
    default "" (tokenValue <$>
                  last (filter (fun t => tokenKey t = name) (tail osArgs))).
Proof.
  unfold init.
  destruct (query_no_descriptor (parseArgs osArgs zeroGlobals) name)
    as [HU HV].
  { assert (registered (parseArgs osArgs zeroGlobals) = []) as ->.
    { unfold parseArgs. by destruct (_ <=? _). }
    by intros r ?%elem_of_nil. }
  rewrite HU, HV, parseArgs_tail. split.
  - apply bool_decide_ext, tokenize_is_key.
  - rewrite tokenize_lookup. by destruct (last _).
Qed.

(** X4: whatever is registered, the key of a token is in use, and its
    value is the value of that token unless a later token has the same
    key: what is typed on the command line takes precedence over any
    shorthand resolution. *)
Theorem parseArgs_then_query (osArgs before after : list string)
    (t : string) (g : Globals) :
  tail osArgs = before ++ t :: after ->
  (forall t', t' ∈ after -> tokenKey t' <> tokenKey t) ->
  Using (parseArgs osArgs g) (tokenKey t) = true /\
  Value (parseArgs osArgs g) (tokenKey t) = tokenValue t.
Proof.
  intros Htail Hafter. apply query_direct_key.
  rewrite parseArgs_tail, Htail, tokenize_lookup.
  rewrite filter_app, filter_cons, decide_True by done.
  rewrite (filter_none_of _ after) by done. by rewrite last_snoc.
Qed.

Lemma parseArgs_then_query_witness :
  Using (parseArgs ["prog"; "-v"; "--out=a"; "-v=2"; "x"] twoFlags)
    (tokenKey "-v=2") = true /\
  Value (parseArgs ["prog"; "-v"; "--out=a"; "-v=2"; "x"] twoFlags)
    (tokenKey "-v=2") = tokenValue "-v=2".
Proof.
  apply (parseArgs_then_query ["prog"; "-v"; "--out=a"; "-v=2"; "x"]
           ["-v"; "--out=a"] ["x"] "-v=2" twoFlags).
  - reflexivity.
  - intros t' Ht'. apply list_elem_of_singleton in Ht'. subst t'.
    by vm_compute.
Defined.

Lemma stripDashes_dashes (rest : string) : stripDashes ("--" +:+ rest) = rest.
Proof.
  unfold stripDashes.
  rewrite (Contains_HasPrefix _ _ (HasPrefix_app "--" rest)).
  apply TrimPrefix_app.
Qed.

Lemma tokenize_one (t : string) :
  tokenize [t] ∅ = {[ tokenKey t := tokenValue t ]}.
Proof. apply (tokenize_snoc [] t ∅). Qed.

Lemma token_pair (k v : string) :
  Contains k "=" = false -> Contains v "=" = false ->
  tokenKey ("--" +:+ k +:+ "=" +:+ v) = k /\
  tokenValue ("--" +:+ k +:+ "=" +:+ v) = v.
Proof.
  intros Hk Hv. unfold tokenKey, tokenValue. cbv zeta.
  rewrite stripDashes_dashes, (Contains_Cut "="%char), (Split_Cut "="%char).
  rewrite (Cut_app "="%char k v Hk). cbn [snd].
  rewrite (Split_Cut "="%char), (Cut_not_found "="%char v Hv). done.
Qed.

Lemma token_flag (k : string) :
  Contains k "=" = false ->
  tokenKey ("--" +:+ k) = k /\ tokenValue ("--" +:+ k) = "".
Proof.
  intros Hk. unfold tokenKey, tokenValue. cbv zeta.
  by rewrite stripDashes_dashes, Hk.
Qed.

(** X5: round trip through the command line.  When neither [k] nor [v]
    contains an [=], the token [--k=v] makes [Using k] true and
    [Value k] equal to [v], and the token [--k] makes [Using k] true and
    [Value k] empty, whatever is registered. *)
Theorem flag_round_trip (prog k v : string) (g : Globals) :
  Contains k "=" = false -> Contains v "=" = false ->
  Using (parseArgs [prog; "--" +:+ k +:+ "=" +:+ v] g) k = true /\
  Value (parseArgs [prog; "--" +:+ k +:+ "=" +:+ v] g) k = v /\
  Using (parseArgs [prog; "--" +:+ k] g) k = true /\
  Value (parseArgs [prog; "--" +:+ k] g) k = "".
Proof.
  intros Hk Hv.
  destruct (token_pair k v Hk Hv) as [Hkey Hval].
  destruct (token_flag k Hk) as [Hkey' Hval'].
  destruct (query_direct_key
              (parseArgs [prog; "--" +:+ k +:+ "=" +:+ v] g) k v) as [? ?].
  { rewrite parseArgs_tokenize, tokenize_one, Hkey, Hval.
    apply lookup_singleton_eq. }
  destruct (query_direct_key (parseArgs [prog; "--" +:+ k] g) k "")
    as [? ?]; [|done].
  rewrite parseArgs_tokenize, tokenize_one, Hkey', Hval'.
  apply lookup_singleton_eq.
Qed.

Lemma flag_round_trip_witness :
  Using (parseArgs ["prog"; "--" +:+ "out" +:+ "=" +:+ "a.txt"] twoFlags)
    "out" = true /\
  Value (parseArgs ["prog"; "--" +:+ "out" +:+ "=" +:+ "a.txt"] twoFlags)
    "out" = "a.txt" /\
  Using (parseArgs ["prog"; "--" +:+ "out"] twoFlags) "out" = true /\
  Value (parseArgs ["prog"; "--" +:+ "out"] twoFlags) "out" = "".
Proof.
  apply (flag_round_trip "prog" "out" "a.txt" twoFlags); reflexivity.
Defined.

Lemma Cut_before_no_sep (c : ascii) (s : string) :
  Contains (Cut s (String c "")).1.1 (String c "") = false.
Proof.
  induction s as [|d s IH]; [done|]. cbn [Cut HasPrefix].
  destruct (decide (d = c)) as [->|Hne].
  - by rewrite HasPrefix_empty.
  - destruct (Cut s (String c "")) as [[before after] found].
    cbn [fst Contains HasPrefix] in *. by rewrite decide_False, IH.
Qed.

Lemma tokenKey_no_equals (t : string) : Contains (tokenKey t) "=" = false.
Proof.
  unfold tokenKey. cbv zeta.
  destruct (Contains (stripDashes t) "=") eqn:Hc; [|done].
  rewrite (Split_Cut "="%char).
  pose proof (Cut_before_no_sep "="%char (stripDashes t)) as Hb.
  destruct (Cut (stripDashes t) "=") as [[before after] found].
  by destruct found.
Qed.

(** X6: no key of the table contains an [=]: a token is always cut at
    its first [=], also when it has several or starts with one. *)
Theorem parseArgs_keys_no_equals (osArgs : list string) (g : Globals)
    (k v : string) :
  Args (parseArgs osArgs g) !! k = Some v -> Contains k "=" = false.
Proof.
  intros Hk. assert (k ∈ tokenKey <$> tail osArgs) as Hin.
  { apply tokenize_is_key. rewrite <- (parseArgs_tail osArgs g). by eexists. }
  apply list_elem_of_fmap in Hin as (t & -> & _). apply tokenKey_no_equals.
Qed.

Lemma parseArgs_keys_no_equals_witness : Contains "a" "=" = false.
Proof.
  apply (parseArgs_keys_no_equals ["prog"; "--a=b=c"; "=x"] zeroGlobals
           "a" "b").
  reflexivity.
Defined.

Lemma Contains_dash_dashes (s : string) :
  Contains s "-" = false -> Contains s "--" = false.
Proof.
  induction s as [|c s IH]; [done|]. cbn [Contains HasPrefix].
  destruct (decide (c = "-"%char)); [by rewrite HasPrefix_empty|].
  cbn [orb]. exact IH.
Qed.

Lemma stripDashes_no_dash (s : string) :
  Contains s "-" = false ->
  stripDashes s = s /\ stripDashes ("-" +:+ s) = s.
Proof.
  intros Hs. pose proof (Contains_dash_dashes s Hs) as Hss.
  unfold stripDashes. rewrite Hs, Hss. split; [done|].
  assert (HasPrefix s "-" = false) as Hp.
  { destruct (HasPrefix s "-") eqn:Hp; [|done].
    apply Contains_HasPrefix in Hp. congruence. }
  assert (Contains ("-" +:+ s) "--" = false) as ->.
  { change ("-" +:+ s) with (String "-"%char s).
    cbn [Contains HasPrefix]. rewrite decide_True by done.
    change (HasPrefix s "-" || Contains s "--" = false).
    by rewrite Hp, Hss. }
  rewrite (Contains_HasPrefix _ _ (HasPrefix_app "-" s)).
  apply TrimPrefix_app.
Qed.

(** X7: for a word [s] without any dash, the tokens [--s], [-s] and [s]
    are interchangeable anywhere in the invocation: the three
    invocations give the same globals. *)
Theorem dash_forms_equivalent (s prog : string) (before after : list string)
    (g : Globals) :
  Contains s "-" = false ->
  parseArgs (prog :: before ++ ("--" +:+ s) :: after) g
    = parseArgs (prog :: before ++ s :: after) g /\
  parseArgs (prog :: before ++ ("-" +:+ s) :: after) g
    = parseArgs (prog :: before ++ s :: after) g.
Proof.
  intros Hs. destruct (stripDashes_no_dash s Hs) as [H0 H1].
  rewrite !parseArgs_eq. unfold tokenize. rewrite !foldl_app.
  cbn [foldl]. by rewrite stripDashes_dashes, H0, H1.
Qed.

Lemma dash_forms_equivalent_witness :
  parseArgs ("prog" :: ["-a"] ++ ("--" +:+ "k=v") :: ["b"]) twoFlags
    = parseArgs ("prog" :: ["-a"] ++ "k=v" :: ["b"]) twoFlags /\
  parseArgs ("prog" :: ["-a"] ++ ("-" +:+ "k=v") :: ["b"]) twoFlags
    = parseArgs ("prog" :: ["-a"] ++ "k=v" :: ["b"]) twoFlags.
Proof.
  apply (dash_forms_equivalent "k=v" "prog" ["-a"] ["b"] twoFlags).
  reflexivity.
Defined.

Lemma filter_key_short {A B} `{EqDecision B} (f : A -> B) (k : B)
    (l : list A) :
  NoDup (f <$> l) -> (length (filter (fun x => f x = k) l) <= 1)%nat.
Proof.
  induction l as [|x l IH]; [simpl; lia|].
  rewrite fmap_cons, NoDup_cons, filter_cons. intros [Hx Hnd].
  destruct (decide (f x = k)) as [Hk|Hk]; [|by apply IH].
  rewrite (filter_none_of _ l); [simpl; lia|].
  intros y Hy Hyk. apply Hx. rewrite Hk, <- Hyk. by apply list_elem_of_fmap_2.
Qed.

(** X8: when the tokens have pairwise distinct keys, their order does
    not matter: a permutation of them gives the same globals. *)
Theorem parseArgs_order_irrelevant (prog : string) (toks toks' : list string)
    (g : Globals) :
  toks ≡ₚ toks' -> NoDup (tokenKey <$> toks) ->
  parseArgs (prog :: toks) g = parseArgs (prog :: toks') g.
Proof.
  intros Hperm Hnd. rewrite !parseArgs_eq. f_equal. apply map_eq. intros k.
  rewrite !tokenize_lookup.
  pose proof (filter_key_short tokenKey k toks Hnd) as Hlen.
  pose proof (filter_Permutation (fun t => tokenKey t = k) _ _ Hperm) as Hf.
  destruct (filter (fun t => tokenKey t = k) toks) as [|x [|y l]].
  - apply Permutation_nil_l in Hf. by rewrite <- Hf.
  - apply Permutation_singleton_l in Hf. by rewrite <- Hf.
  - simpl in Hlen. lia.
Qed.

Lemma parseArgs_order_irrelevant_witness :
  parseArgs ("prog" :: ["--a=1"; "-b"; "c"]) twoFlags
    = parseArgs ("prog" :: ["c"; "--a=1"; "-b"]) twoFlags.
Proof.
  apply (parseArgs_order_irrelevant "prog" ["--a=1"; "-b"; "c"]
           ["c"; "--a=1"; "-b"] twoFlags).
  - symmetry. apply (Permutation_cons_append ["--a=1"; "-b"] "c").
  - apply (bool_decide_unpack _). vm_compute. exact I.
Defined.

(** ** Registration and what follows it *)

Lemma Register_returned (arg : Argument) (g : Globals) :
  (Register arg g).1 = Returned tt ->
  (nonEmpty (DefaultValue arg) && negb (ExpectsValue arg) = false) /\
  existsb (conflicts arg) (registered g) = false /\
  Register arg g = (Returned tt, setRegistered (registered g ++ [arg]) g).
Proof.
  intros Hret. pose proof (Register_outcome arg g) as Hout.
  destruct (_ || _) eqn:Hbad.
  { destruct Hout as [msg Hout]. by rewrite Hout in Hret. }
  by apply orb_false_iff in Hbad as [? ?].
Qed.

Lemma no_conflict (arg : Argument) (regs : list Argument) (r : Argument) :
  existsb (conflicts arg) regs = false -> r ∈ regs ->
  Name r <> Name arg /\ (Short arg <> "" -> Short r <> Short arg).
Proof.
  intros Hnone Hr.
  assert (conflicts arg r = false) as Hc.
  { destruct (conflicts arg r) eqn:Hc; [|done].
    assert (existsb (conflicts arg) regs = true); [|congruence].
    apply existsb_exists. exists r. split; [by apply list_elem_of_In|done]. }
  split.
  - intros Hn. assert (conflicts arg r = true); [|congruence].
    apply conflicts_true. by left.
  - intros Hs Hs'. assert (conflicts arg r = true); [|congruence].
    apply conflicts_true. by right.
Qed.

(** X9: every call of [Register], whether it returns or panics, keeps
    the registered sequence valid: names pairwise distinct, non-empty
    shorthands pairwise distinct, and a default value only on a
    descriptor that expects a value. *)
Theorem Register_keeps_valid (arg : Argument) (g : Globals) :
  validRegistry (registered g) ->
  validRegistry (registered (Register arg g).2).
Proof.
  intros (Hnames & Hshorts & Hdefaults).
  pose proof (Register_outcome arg g) as Hout.
  destruct (_ || _) eqn:Hbad.
  { destruct Hout as [msg ->]. done. }
  rewrite Hout. cbn [snd setRegistered registered].
  apply orb_false_iff in Hbad as [Hdef Hnone].
  split; [|split].
  - rewrite fmap_app. apply NoDup_app. split; [done|].
    split; [|apply NoDup_singleton].
    intros n Hn [->|[]%elem_of_nil]%elem_of_cons.
    apply list_elem_of_fmap in Hn as (r & Hname & Hr).
    by destruct (no_conflict arg _ r Hnone Hr) as [? _].
  - rewrite fmap_app, filter_app. cbn [fmap list_fmap].
    rewrite filter_cons, filter_nil.
    destruct (decide (Short arg <> "")) as [Hs|_];
      [|by rewrite app_nil_r].
    apply NoDup_app. split; [done|]. split; [|apply NoDup_singleton].
    intros s [_ Hin]%list_elem_of_filter [->|[]%elem_of_nil]%elem_of_cons.
    apply list_elem_of_fmap in Hin as (r & Hshort & Hr).
    destruct (no_conflict arg _ r Hnone Hr) as [_ Hne]. by apply Hne.
  - apply Forall_app. split; [done|]. apply Forall_singleton. intros Hd.
    apply andb_false_iff in Hdef as [Hd'|He].
    + apply nonEmpty_true in Hd. congruence.
    + by apply negb_false_iff in He.
Qed.

Lemma Register_keeps_valid_witness :
  validRegistry (registered (Register (flagArg "d" "e" true) twoFlags).2).
Proof.
  apply (Register_keeps_valid (flagArg "d" "e" true) twoFlags).
  change (registered twoFlags)
    with [flagArg "a" "" false; flagArg "b" "c" true].
  repeat split.
  - apply (bool_decide_unpack _). vm_compute. exact I.
  - apply (bool_decide_unpack _). vm_compute. exact I.
  - repeat constructor; intros Hd; by destruct Hd.
Defined.

(** X10: once a descriptor is registered, a later registration under the
    same name, or under the same non-empty shorthand, panics and changes
    nothing; in particular registering the same descriptor twice does. *)
Theorem Register_again_panics (arg arg' : Argument) (g : Globals) :
  (Register arg g).1 = Returned tt ->
  Name arg' = Name arg \/ (Short arg' <> "" /\ Short arg' = Short arg) ->
  exists msg,
    Register arg' (Register arg g).2 = (Panicked msg, (Register arg g).2).
Proof.
  intros Hret Hsame. destruct (Register_returned arg g Hret) as (_ & _ & ->).
  cbn [snd]. pose proof (Register_outcome arg'
    (setRegistered (registered g ++ [arg]) g)) as Hout.
  destruct (_ || _) eqn:Hbad; [done|].
  apply orb_false_iff in Hbad as [_ Hnone].
  cbn [setRegistered registered] in Hnone.
  destruct (no_conflict arg' _ arg Hnone) as [Hn Hs].
  { apply elem_of_app. right. by left. }
  destruct Hsame as [Hname|[Hne Hshort]]; [by destruct Hn|].
  by destruct (Hs Hne).
Qed.

Lemma Register_again_panics_witness :
  exists msg,
    Register (flagArg "other" "c" false)
      (Register (flagArg "b" "c" true)
         (Register (flagArg "a" "" false) zeroGlobals).2).2
    = (Panicked msg,
       (Register (flagArg "b" "c" true)
          (Register (flagArg "a" "" false) zeroGlobals).2).2).
Proof.
  apply (Register_again_panics (flagArg "b" "c" true)
           (flagArg "other" "c" false)
           (Register (flagArg "a" "" false) zeroGlobals).2).
  - reflexivity.
  - right. split; [discriminate|reflexivity].
Defined.

Lemma UsingLoop_app (m : gmap string string) (name : string)
    (l1 l2 : list Argument) :
  UsingLoop m name (l1 ++ l2) = UsingLoop m name l1 || UsingLoop m name l2.
Proof.
  induction l1 as [|r l1 IH]; [done|]. cbn [app UsingLoop].
  destruct (negb (String.eqb (Name r) name)); [done|].
  by destruct (commaOk m (Short r)).2.
Qed.

Lemma ValueLoop_app (m : gmap string string) (name : string)
    (l1 l2 : list Argument) :
  ValueLoop m name (l1 ++ l2) =
    if UsingLoop m name l1 then ValueLoop m name l1 else ValueLoop m name l2.
Proof.
  induction l1 as [|r l1 IH]; [done|]. cbn [app UsingLoop ValueLoop].
  destruct (negb (String.eqb (Name r) name)); [done|].
  by destruct (commaOk m (Short r)) as [val [|]].
Qed.

Lemma loops_no_descriptor (m : gmap string string) (name : string)
    (regs : list Argument) :
  (forall r, r ∈ regs -> Name r <> name) ->
  UsingLoop m name regs = false /\ ValueLoop m name regs = "".
Proof.
  induction regs as [|r regs IH]; intros Hnone; [done|].
  cbn [UsingLoop ValueLoop].
  destruct (String.eqb_spec (Name r) name) as [Hn|_].
  { destruct (Hnone r); [by left|done]. }
  cbn [negb]. apply IH. intros r' Hr'. apply Hnone. by right.
Qed.

Lemma Register_registered (arg : Argument) (g : Globals) :
  Args (Register arg g).2 = Args g /\
  (registered (Register arg g).2 = registered g \/
   registered (Register arg g).2 = registered g ++ [arg]).
Proof.
  pose proof (Register_outcome arg g) as Hout. destruct (_ || _).
  - destruct Hout as [msg ->]. split; [done|by left].
  - rewrite Hout. split; [done|by right].
Qed.

(** X11: a call of [Register] for [arg], whatever its outcome, changes
    neither [Using] nor [Value] of a name other than that of [arg]. *)
Theorem Register_other_names (arg : Argument) (g : Globals) (name : string) :
  name <> Name arg ->
  Using (Register arg g).2 name = Using g name /\
  Value (Register arg g).2 name = Value g name.
Proof.
  intros Hname. destruct (Register_registered arg g) as [Hargs [Hregs|Hregs]];
    unfold Using, Value; rewrite Hargs, Hregs; [done|].
  destruct (loops_no_descriptor (Args g) name [arg]) as [HU HV].
  { intros r ->%list_elem_of_singleton. done. }
  rewrite UsingLoop_app, ValueLoop_app, HU, HV, orb_false_r.
  split; [done|]. destruct (lenMap (Args g) =? 0); [done|].
  destruct (commaOk (Args g) name) as [val [|]]; [done|].
  destruct (UsingLoop (Args g) name (registered g)) eqn:HUg; [done|].
  clear -HUg. induction (registered g) as [|r regs IH]; [done|].
  cbn [UsingLoop ValueLoop] in *.
  destruct (negb (String.eqb (Name r) name)); [by apply IH|].
  destruct (commaOk (Args g) (Short r)) as [val [|]]; [done|by apply IH].
Qed.

Lemma Register_other_names_witness :
  Using (Register (flagArg "d" "e" true)
           (parseArgs ["prog"; "-c=1"] twoFlags)).2 "b"
    = Using (parseArgs ["prog"; "-c=1"] twoFlags) "b" /\
  Value (Register (flagArg "d" "e" true)
           (parseArgs ["prog"; "-c=1"] twoFlags)).2 "b"
    = Value (parseArgs ["prog"; "-c=1"] twoFlags) "b".
Proof.
  apply (Register_other_names (flagArg "d" "e" true)
           (parseArgs ["prog"; "-c=1"] twoFlags) "b").
  discriminate.
Defined.

(** X12: after a successful [Register arg], the name of [arg] is in use
    exactly when the table holds the name or the shorthand of [arg] as
    a key; its value is the one stored under the
    name when the name is a key, and the one stored under the shorthand
    otherwise (the empty string when neither is a key). *)
Theorem Register_then_query (arg : Argument) (g : Globals) :
  (Register arg g).1 = Returned tt ->
  Using (Register arg g).2 (Name arg) =
    bool_decide (is_Some (Args g !! Name arg) \/
                 is_Some (Args g !! Short arg)) /\
  Value (Register arg g).2 (Name arg) =
    match Args g !! Name arg with
    | Some v => v
    | None => default "" (Args g !! Short arg)
    end.
Proof.
  intros Hret. destruct (Register_returned arg g Hret) as (_ & Hnone & ->).
  cbn [snd]. unfold Using, Value. cbn [setRegistered Args registered].
  destruct (loops_no_descriptor (Args g) (Name arg) (registered g))
    as [HU HV].
  { intros r Hr. by destruct (no_conflict arg _ r Hnone Hr). }
  rewrite UsingLoop_app, ValueLoop_app, HU. cbn [orb UsingLoop ValueLoop].
  rewrite String.eqb_refl. cbn [negb]. rewrite !commaOk_spec. cbn [snd].
  destruct (lenMap (Args g) =? 0) eqn:Hlen.
  { apply lenMap_zero in Hlen. rewrite Hlen, !lookup_empty. split; [|done].
    symmetry. apply bool_decide_eq_false_2. by intros [[? ?]|[? ?]]. }
  destruct (Args g !! Name arg) as [v|] eqn:Hv.
  - rewrite (bool_decide_eq_true_2 (is_Some (Some v))) by (by eexists).
    split; [|done]. symmetry. apply bool_decide_eq_true_2. left. by eexists.
  - rewrite (bool_decide_eq_false_2 (is_Some None)) by (by intros [? ?]).
    destruct (Args g !! Short arg) as [w|] eqn:Hw.
    + rewrite (bool_decide_eq_true_2 (is_Some (Some w))) by (by eexists).
      split; [|done]. symmetry. apply bool_decide_eq_true_2.
      right. by eexists.
    + rewrite (bool_decide_eq_false_2 (is_Some None)) by (by intros [? ?]).
      split; [|done]. symmetry. apply bool_decide_eq_false_2.
      by intros [[? ?]|[? ?]].
Qed.

Lemma Register_then_query_witness :
  Using (Register (flagArg "flag" "f" true)
           (parseArgs ["prog"; "-f=val"] zeroGlobals)).2
    (Name (flagArg "flag" "f" true)) =
    bool_decide
      (is_Some (Args (parseArgs ["prog"; "-f=val"] zeroGlobals)
                  !! Name (flagArg "flag" "f" true)) \/
       is_Some (Args (parseArgs ["prog"; "-f=val"] zeroGlobals)
                  !! Short (flagArg "flag" "f" true))) /\
  Value (Register (flagArg "flag" "f" true)
           (parseArgs ["prog"; "-f=val"] zeroGlobals)).2
    (Name (flagArg "flag" "f" true)) =
    match Args (parseArgs ["prog"; "-f=val"] zeroGlobals)
            !! Name (flagArg "flag" "f" true) with
    | Some v => v
    | None =>
        default "" (Args (parseArgs ["prog"; "-f=val"] zeroGlobals)
                      !! Short (flagArg "flag" "f" true))
    end.
Proof.
  apply (Register_then_query (flagArg "flag" "f" true)
           (parseArgs ["prog"; "-f=val"] zeroGlobals)).
  reflexivity.
Defined.

Lemma Join_snoc (l : list string) (e sep : string) :
  Join (l ++ [e]) sep =
    match l with
    | [] => e
    | _ :: _ => Join l sep +:+ sep +:+ e
    end.
Proof.
  induction l as [|x l IH]; [done|].
  destruct l as [|y l]; [done|].
  change (Join ((x :: y :: l) ++ [e]) sep)
    with (x +:+ sep +:+ Join ((y :: l) ++ [e]) sep).
  rewrite IH.
  change (Join (x :: y :: l) sep) with (x +:+ sep +:+ Join (y :: l) sep).
  by rewrite !app_assoc_str.
Qed.

(** X13: a successful [Register arg] extends the one-line summary by the
    entry of [arg], after a space unless it is the first descriptor, and
    the longest name length becomes the larger of the former one and
    the length of the name of [arg]. *)
Theorem Register_then_summary (arg : Argument) (g : Globals) :
  (Register arg g).1 = Returned tt ->
  availableFlags (Register arg g).2 =
    match registered g with
    | [] => flagEntry arg
    | _ :: _ => availableFlags g +:+ " " +:+ flagEntry arg
    end /\
  argNameMaxLen (Register arg g).2 =
    Z.max (argNameMaxLen g) (lenString (Name arg)).
Proof.
  intros Hret. destruct (Register_returned arg g Hret) as (_ & _ & ->).
  cbn [snd]. unfold availableFlags, argNameMaxLen.
  cbn [setRegistered registered]. split.
  - rewrite !availableFlagsLoop_Join by lia.
    rewrite !app_empty_l, map_app. cbn [map]. rewrite Join_snoc.
    by destruct (registered g).
  - rewrite !argNameMaxLenLoop_foldl, foldl_app. done.
Qed.

Lemma Register_then_summary_witness :
  availableFlags (Register (flagArg "dest" "" true) twoFlags).2 =
    match registered twoFlags with
    | [] => flagEntry (flagArg "dest" "" true)
    | _ :: _ =>
        availableFlags twoFlags +:+ " " +:+ flagEntry (flagArg "dest" "" true)
    end /\
  argNameMaxLen (Register (flagArg "dest" "" true) twoFlags).2 =
    Z.max (argNameMaxLen twoFlags) (lenString (Name (flagArg "dest" "" true))).
Proof.
  apply (Register_then_summary (flagArg "dest" "" true) twoFlags).
  reflexivity.
Defined.

(** ** The usage banner *)




Lemma Repeat_nonpos (s : string) (count : Z) :
  count <= 0 -> Repeat s count = "".
Proof. intros H. unfold Repeat. by replace (Z.to_nat count) with O by lia. Qed.

Lemma lenSlice_zero {A} (l : list A) :
  (lenSlice l =? 0) = match l with [] => true | _ :: _ => false end.
Proof. by destruct l. Qed.

Lemma nonEmpty_decide (s : string) :
  nonEmpty s = if decide (s = "") then false else true.
Proof.
  unfold nonEmpty. by destruct (String.eqb_spec s ""), (decide (s = "")).
Qed.

Lemma usageLine_columns (maxArgNameLen : Z) (arg : Argument) :
  usageLine maxArgNameLen arg =
    tab +:+ shortColumn arg +:+ tab +:+ " --"
      +:+ nameColumn maxArgNameLen arg +:+ tab +:+ usageDetails arg.
Proof.
  unfold usageLine, shortColumn, nameColumn, usageDetails, valueMark.
  rewrite lenSlice_zero, !nonEmpty_decide.
  destruct (ExpectsValue arg);
    destruct (decide (Short arg = ""));
    destruct (decide (Description arg = ""));
    destruct (decide (DefaultValue arg = ""));
    destruct (Values arg) as [|val vals];
    destruct (Z.ltb_spec (lenString (Name arg)) maxArgNameLen);
    rewrite ?(Repeat_nonpos " " (maxArgNameLen - lenString (Name arg)))
      by lia;
    cbn [negb]; cbv beta iota zeta;
    by rewrite ?app_assoc_str, ?app_empty_r, ?app_empty_l.
Qed.

Lemma PrintUsageLoop_concat (maxArgNameLen : Z) (regs : list Argument)
    (argumentsUsage : string) :
  PrintUsageLoop maxArgNameLen regs argumentsUsage =
    argumentsUsage +:+
    concatStrings
      (map (fun r => usageLine maxArgNameLen r +:+ newline) regs).
Proof.
  revert argumentsUsage. induction regs as [|r regs IH]; intros acc.
  { simpl. by rewrite app_empty_r. }
  cbn [PrintUsageLoop map concatStrings]. by rewrite IH, !app_assoc_str.
Qed.

(** X14: the text of [PrintUsage] is the header line with the program
    path, the custom usage and the bracketed summary of the flags, the
    line [Options:], and then one line per registered descriptor, in
    registration order, made of the shorthand column, the name column
    and the details, each after a tab; [PrintUsage] hands that text to
    the standard error, panics exactly when that write fails, and
    leaves the globals as they are. *)
Theorem PrintUsage_text (prog : string) (rest : list string)
    (fprintFails : string -> bool) (g : Globals) :
  usageText prog g =
    "USAGE: " +:+ prog +:+ " " +:+ CustomUsage g +:+ " ["
      +:+ Join (map flagEntry (registered g)) " " +:+ "]" +:+ newline
      +:+ "Options:" +:+ newline
      +:+ concatStrings
            (map (fun r =>
                    tab +:+ shortColumn r +:+ tab +:+ " --"
                      +:+ nameColumn (argNameMaxLen g) r +:+ tab
                      +:+ usageDetails r +:+ newline)
               (registered g)) /\
  PrintUsage (prog :: rest) fprintFails g =
    (if fprintFails (usageText prog g)
     then Panicked "unable to write to stderr" else Returned tt, g).
Proof.
  split.
  - unfold usageText, availableFlags. cbv zeta.
    rewrite PrintUsageLoop_concat, availableFlagsLoop_Join by lia.
    rewrite app_empty_l, !app_assoc_str. do 11 f_equal.
    apply map_ext. intros r. by rewrite usageLine_columns, !app_assoc_str.
  - unfold PrintUsage. by destruct (fprintFails _).
Qed.


